(** * Rugged::RemoteCollection — the remote registry of a repository

    A shallow embedding of [ext/rugged/rugged_remote_collection.c]: the
    Ruby-facing methods [create], [create_anonymous], [[]], [each],
    [each_name] and [delete] of [Rugged::RemoteCollection], written over an
    explicit world (the repository's remote configuration plus a trace of what
    the method under study did) and an exception monad for Ruby's non-local
    exits.  libgit2 and the Ruby runtime are collaborators; their interfaces
    are stated here and kept abstract wherever a property does not depend on
    what they compute. *)

From Stdlib Require Import ZArith List String Ascii Bool Lia.
Import ListNotations.
Local Open Scope string_scope.
Local Open Scope Z_scope.
Local Open Scope list_scope.

(* ===================================================================== *)
(** ** libgit2 side: remotes and error codes *)
(* ===================================================================== *)

(** The fields of a [git_remote] this layer can observe. *)
Record git_remote : Type := mk_git_remote {
  remote_name     : option string;   (* NULL for an anonymous remote *)
  remote_url      : string;
  remote_pushurl  : option string;
  remote_refspecs : list string
}.

(** libgit2's [git_error_code] (errors.h), without [GIT_OK]. *)
Inductive git_error_code : Type :=
| GIT_ERROR
| GIT_ENOTFOUND
| GIT_EEXISTS
| GIT_EAMBIGUOUS
| GIT_EBUFS
| GIT_EUSER
| GIT_EBAREREPO
| GIT_EUNBORNBRANCH
| GIT_EUNMERGED
| GIT_ENONFASTFORWARD
| GIT_EINVALIDSPEC
| GIT_EMERGECONFLICT
| GIT_ELOCKED
| GIT_EMODIFIED
| GIT_PASSTHROUGH
| GIT_ITEROVER.

(** The [int] each code stands for. *)
Definition git_error_value (e : git_error_code) : Z :=
  match e with
  | GIT_ERROR => -1
  | GIT_ENOTFOUND => -3
  | GIT_EEXISTS => -4
  | GIT_EAMBIGUOUS => -5
  | GIT_EBUFS => -6
  | GIT_EUSER => -7
  | GIT_EBAREREPO => -8
  | GIT_EUNBORNBRANCH => -9
  | GIT_EUNMERGED => -10
  | GIT_ENONFASTFORWARD => -11
  | GIT_EINVALIDSPEC => -12
  | GIT_EMERGECONFLICT => -13
  | GIT_ELOCKED => -14
  | GIT_EMODIFIED => -15
  | GIT_PASSTHROUGH => -30
  | GIT_ITEROVER => -31
  end.

(** A libgit2 call: [int error] together with its out-parameter.  The
    out-parameter is set exactly when the call returns 0. *)
Inductive git_result (A : Type) : Type :=
| GitOk (a : A)
| GitErr (e : git_error_code).
Arguments GitOk {A} a.
Arguments GitErr {A} e.

(** The value of the C variable [error] after a call. *)
Definition error_of {A} (r : git_result A) : Z :=
  match r with
  | GitOk _ => 0
  | GitErr e => git_error_value e
  end.

(** The remote functions of libgit2 that the collection calls, over an
    abstract configuration state [S] of the one repository a collection is
    bound to. *)
Class ConfigStore (S : Type) : Type := {
  store_list   : S -> git_result (list string);
  store_load   : S -> string -> git_result git_remote;
  store_create : S -> string -> string -> S * git_result git_remote;
  store_create_anonymous : S -> string -> S * git_result git_remote;
  store_delete : S -> string -> S * git_result unit
}.

(* ===================================================================== *)
(** ** Ruby side: values, types, exceptions *)
(* ===================================================================== *)

Inductive VALUE : Type :=
| Qnil
| RString (s : string)
| RSymbol (s : string)
| RFixnum (n : Z)
| RRepository (live : bool)
| RRemoteCollection (owner : VALUE)
| RRemote (owner : VALUE) (remote : git_remote)
| REnumerator (receiver : VALUE) (meth : VALUE).

Inductive ruby_type : Type :=
| T_NIL | T_STRING | T_SYMBOL | T_FIXNUM | T_DATA | T_OBJECT.

Definition TYPE (v : VALUE) : ruby_type :=
  match v with
  | Qnil => T_NIL
  | RString _ => T_STRING
  | RSymbol _ => T_SYMBOL
  | RFixnum _ => T_FIXNUM
  | RRepository _ => T_DATA
  | RRemote _ _ => T_DATA
  | RRemoteCollection _ => T_OBJECT
  | REnumerator _ _ => T_OBJECT
  end.

Definition ruby_type_eqb (a b : ruby_type) : bool :=
  match a, b with
  | T_NIL, T_NIL | T_STRING, T_STRING | T_SYMBOL, T_SYMBOL
  | T_FIXNUM, T_FIXNUM | T_DATA, T_DATA | T_OBJECT, T_OBJECT => true
  | _, _ => false
  end.

Inductive rb_class : Type :=
| rb_cRuggedRepo
| rb_cRuggedRemote
| rb_cRuggedRemoteCollection.

Definition rb_obj_is_kind_of (v : VALUE) (c : rb_class) : bool :=
  match v, c with
  | RRepository _, rb_cRuggedRepo => true
  | RRemote _ _, rb_cRuggedRemote => true
  | RRemoteCollection _, rb_cRuggedRemoteCollection => true
  | _, _ => false
  end.

Inductive rb_exception : Type :=
| rb_eTypeError (msg : string)
| rb_eArgError (msg : string)
| rb_eRepositoryUnavailable
| rb_eRuggedError (code : git_error_code).

(** A non-local exit of a method: an exception raised by the method itself,
    or [rb_jump_tag] resuming the unwinding a block started. *)
Inductive unwinding : Type :=
| Raise (e : rb_exception)
| JumpTag (state : Z).

(** The error taxonomy of the registry contract. *)
Inductive error_class : Type :=
| InvalidArgument
| AlreadyExists
| NotFound
| RepositoryUnavailable
| StoreError.

Definition classify (e : rb_exception) : error_class :=
  match e with
  | rb_eTypeError _ => InvalidArgument
  | rb_eArgError _ => InvalidArgument
  | rb_eRepositoryUnavailable => RepositoryUnavailable
  | rb_eRuggedError GIT_ENOTFOUND => NotFound
  | rb_eRuggedError GIT_EEXISTS => AlreadyExists
  | rb_eRuggedError GIT_EINVALIDSPEC => InvalidArgument
  | rb_eRuggedError _ => StoreError
  end.

(** [rugged_owner] (rugged.h): the [@owner] instance variable. *)
Definition rugged_owner (self : VALUE) : VALUE :=
  match self with
  | RRemoteCollection owner => owner
  | RRemote owner _ => owner
  | _ => Qnil
  end.

(** [rugged_set_owner] (rugged.h): set the [@owner] instance variable. *)
Definition rugged_set_owner (self owner : VALUE) : VALUE :=
  match self with
  | RRemoteCollection _ => RRemoteCollection owner
  | RRemote _ r => RRemote owner r
  | v => v
  end.

Definition rb_git_remote_collection_initialize (self repo : VALUE) : VALUE :=
  rugged_set_owner self repo.

(** Modelled from the spec: [isRepositoryValid], the liveness test behind
    [rugged_check_repo] (defined in rugged.c, not in this file): the bound
    object is a repository and it is still open. *)
Definition isRepositoryValid (rb_repo : VALUE) : bool :=
  match rb_repo with
  | RRepository live => live
  | _ => false
  end.

(** Modelled from the spec: [Rugged::Remote#name] (rugged_remote.c), which
    [delete] calls through [rb_funcall]: the remote's name, or nil for an
    anonymous remote. *)
Definition rb_git_remote_name (v : VALUE) : VALUE :=
  match v with
  | RRemote _ r =>
      match remote_name r with
      | Some n => RString n
      | None => Qnil
      end
  | _ => Qnil
  end.

(** Modelled from the spec: [rugged_remote_new] (rugged_remote.c, not in this
    file): the RemoteHandle for a [git_remote], with the repository as its
    owner. *)
Definition rugged_remote_new (owner : VALUE) (remote : git_remote) : VALUE :=
  RRemote owner remote.

Definition rb_str_new_utf8 (s : string) : VALUE := RString s.

Definition CSTR2SYM (s : string) : VALUE := RSymbol s.

(** Does a Ruby string hold a NUL byte?  [StringValueCStr] refuses those. *)
Fixpoint has_nul (s : string) : bool :=
  match s with
  | EmptyString => false
  | String c rest => Ascii.eqb c zero || has_nul rest
  end.

(** What a method call does that the contract talks about: calls into the
    configuration store, and values handed to the block. *)
Inductive store_call : Type :=
| CallList
| CallLoad (name : string)
| CallCreate (name url : string)
| CallCreateAnonymous (url : string)
| CallDelete (name : string).

Inductive event : Type :=
| StoreCall (c : store_call)
| Yield (v : VALUE).

(** How a method call ends: with a value, or by a non-local exit. *)
Inductive result (A : Type) : Type :=
| Ok (a : A)
| Abort (u : unwinding).
Arguments Ok {A} a.
Arguments Abort {A} u.

(* ===================================================================== *)
(** ** The methods of the collection *)
(* ===================================================================== *)

Section Collection.

Context {S : Type} {CS : ConfigStore S}.

(** libgit2's URL validator, used by [rugged_validate_remote_url]. *)
Variable git_remote_valid_url : string -> bool.

Record world : Type := mk_world {
  config : S;
  trace  : list event
}.

Definition log (e : event) (w : world) : world :=
  {| config := config w; trace := trace w ++ [e] |}.

Definition M (A : Type) : Type := world -> world * result A.

Definition ret {A} (a : A) : M A := fun w => (w, Ok a).

Definition bind {A B} (m : M A) (k : A -> M B) : M B :=
  fun w =>
    match m w with
    | (w', Ok a) => k a w'
    | (w', Abort u) => (w', Abort u)
    end.

Definition rb_raise {A} (e : rb_exception) : M A :=
  fun w => (w, Abort (Raise e)).

Definition rb_jump_tag {A} (state : Z) : M A :=
  fun w => (w, Abort (JumpTag state)).

Notation "x <- m ;; k" := (bind m (fun x => k))
  (at level 61, m at next level, right associativity).
Notation "m ;; k" := (bind m (fun _ => k))
  (at level 61, right associativity).

(** The block of the running method.  It runs arbitrary Ruby code, so it may
    change the configuration; it ends normally (state 0) or by a non-local
    exit, which [rb_protect] catches and reports as a nonzero state. *)
Definition block : Type := VALUE -> S -> S * Z.

(** [rb_protect(rb_yield, v, &exception)]: the value written to [exception]. *)
Definition rb_protect_yield (blk : block) (v : VALUE) : M Z :=
  fun w =>
    let (s', state) := blk v (config w) in
    ({| config := s'; trace := trace w ++ [Yield v] |}, Ok state).

(** Modelled from the spec: [rugged_check_repo] (rugged.c): fails with
    [RepositoryUnavailable] unless the repository is live. *)
Definition rugged_check_repo (rb_repo : VALUE) : M unit :=
  if isRepositoryValid rb_repo then ret tt
  else rb_raise rb_eRepositoryUnavailable.

(** Ruby's [Check_Type]. *)
Definition Check_Type (v : VALUE) (t : ruby_type) : M unit :=
  if ruby_type_eqb (TYPE v) t then ret tt
  else rb_raise (rb_eTypeError "wrong argument type").

(** Ruby's [StringValueCStr]: the C string of a Ruby string, refused when it
    holds a NUL byte. *)
Definition StringValueCStr (v : VALUE) : M string :=
  match v with
  | RString s =>
      if has_nul s then rb_raise (rb_eArgError "string contains null byte")
      else ret s
  | _ => rb_raise (rb_eTypeError "no implicit conversion into String")
  end.

(** Modelled from the spec: [rugged_validate_remote_url] (rugged_remote.c):
    [validateUrl] fails with an [InvalidArgument]-class error for a URL the
    collaborator's validator rejects. *)
Definition rugged_validate_remote_url (rb_url : VALUE) : M unit :=
  url <- StringValueCStr rb_url ;;
  if git_remote_valid_url url then ret tt
  else rb_raise (rb_eArgError "Invalid URL format").

(** Modelled from the spec: [rugged_exception_check] (rugged.h, not in this
    file): a failure of the store ([error < 0], see [error_of_negative]
    below) is forwarded unchanged as an exception; otherwise the
    out-parameter of the call is usable. *)
Definition rugged_exception_check {A} (r : git_result A) : M A :=
  match r with
  | GitOk a => ret a
  | GitErr e => rb_raise (rb_eRuggedError e)
  end.

(** The libgit2 calls, run against the world and recorded in the trace. *)
Definition git_remote_list : M (git_result (list string)) :=
  fun w => (log (StoreCall CallList) w, Ok (store_list (config w))).

Definition git_remote_load (name : string) : M (git_result git_remote) :=
  fun w => (log (StoreCall (CallLoad name)) w, Ok (store_load (config w) name)).

Definition git_remote_create (name url : string) : M (git_result git_remote) :=
  fun w =>
    let (s', r) := store_create (config w) name url in
    ({| config := s'; trace := trace w ++ [StoreCall (CallCreate name url)] |},
     Ok r).

Definition git_remote_create_anonymous (url : string)
  : M (git_result git_remote) :=
  fun w =>
    let (s', r) := store_create_anonymous (config w) url in
    ({| config := s'; trace := trace w ++ [StoreCall (CallCreateAnonymous url)] |},
     Ok r).

Definition git_remote_delete (name : string) : M (git_result unit) :=
  fun w =>
    let (s', r) := store_delete (config w) name in
    ({| config := s'; trace := trace w ++ [StoreCall (CallDelete name)] |},
     Ok r).

(** [remotes.create_anonymous(url)] *)
Definition rb_git_remote_collection_create_anonymous
  (self rb_url : VALUE) : M VALUE :=
  let rb_repo := rugged_owner self in
  rugged_check_repo rb_repo ;;
  Check_Type rb_url T_STRING ;;
  rugged_validate_remote_url rb_url ;;
  url <- StringValueCStr rb_url ;;
  error <- git_remote_create_anonymous url ;;
  remote <- rugged_exception_check error ;;
  ret (rugged_remote_new rb_repo remote).

(** [remotes.create(name, url)].  C leaves open which of the two
    [StringValueCStr] arguments of [git_remote_create] is evaluated first;
    both raise the same error, so the order taken here does not show. *)
Definition rb_git_remote_collection_create
  (self rb_name rb_url : VALUE) : M VALUE :=
  let rb_repo := rugged_owner self in
  rugged_check_repo rb_repo ;;
  Check_Type rb_name T_STRING ;;
  Check_Type rb_url T_STRING ;;
  rugged_validate_remote_url rb_url ;;
  name <- StringValueCStr rb_name ;;
  url <- StringValueCStr rb_url ;;
  error <- git_remote_create name url ;;
  remote <- rugged_exception_check error ;;
  ret (rugged_remote_new rb_repo remote).

(** [remotes[name]] *)
Definition rb_git_remote_collection_aref (self rb_name : VALUE) : M VALUE :=
  let rb_repo := rugged_owner self in
  rugged_check_repo rb_repo ;;
  Check_Type rb_name T_STRING ;;
  name <- StringValueCStr rb_name ;;
  error <- git_remote_load name ;;
  if error_of error =? git_error_value GIT_ENOTFOUND then ret Qnil
  else
    remote <- rugged_exception_check error ;;
    ret (rugged_remote_new rb_repo remote).

(** The [only_names] loop:
    [for (i = 0; !exception && i < remotes.count; ++i)]. *)
Fixpoint each_name_loop (blk : block) (strings : list string)
  (exception : Z) : M Z :=
  match strings with
  | [] => ret exception
  | s :: rest =>
      if exception =? 0 then
        exception' <- rb_protect_yield blk (rb_str_new_utf8 s) ;;
        each_name_loop blk rest exception'
      else ret exception
  end.

(** The loop over full remotes:
    [for (i = 0; !exception && !error && i < remotes.count; ++i)].
    The loop variables are [error] (0 or a libgit2 code) and [exception]. *)
Fixpoint each_loop (rb_repo : VALUE) (blk : block) (strings : list string)
  (error : git_result unit) (exception : Z) : M (git_result unit * Z) :=
  match strings with
  | [] => ret (error, exception)
  | s :: rest =>
      if (exception =? 0) && (error_of error =? 0) then
        loaded <- git_remote_load s ;;
        match loaded with
        | GitOk remote =>
            exception' <- rb_protect_yield blk (rugged_remote_new rb_repo remote) ;;
            each_loop rb_repo blk rest (GitOk tt) exception'
        | GitErr e =>
            each_loop rb_repo blk rest (GitErr e) exception
        end
      else ret (error, exception)
  end.

(** [rb_git_remote_collection__each]; [blk] is [None] when no block is
    given.  [git_strarray_free] releases the snapshot after the loop and has
    no effect on the world. *)
Definition rb_git_remote_collection__each
  (self : VALUE) (only_names : Z) (blk : option block) : M VALUE :=
  match blk with
  | None =>
      if negb (only_names =? 0) then
        ret (REnumerator self (CSTR2SYM "each_name"))
      else
        ret (REnumerator self (CSTR2SYM "each"))
  | Some blk =>
      let rb_repo := rugged_owner self in
      rugged_check_repo rb_repo ;;
      listed <- git_remote_list ;;
      remotes <- rugged_exception_check listed ;;
      flags <-
        (if negb (only_names =? 0) then
           exception <- each_name_loop blk remotes 0 ;;
           ret (GitOk tt, exception)
         else
           each_loop rb_repo blk remotes (GitOk tt) 0) ;;
      let (error, exception) := flags : git_result unit * Z in
      if negb (exception =? 0) then rb_jump_tag exception
      else
        rugged_exception_check error ;;
        ret Qnil
  end.

(** [remotes.each { |remote| }] *)
Definition rb_git_remote_collection_each
  (self : VALUE) (blk : option block) : M VALUE :=
  rb_git_remote_collection__each self 0 blk.

(** [remotes.each_name { |str| }] *)
Definition rb_git_remote_collection_each_name
  (self : VALUE) (blk : option block) : M VALUE :=
  rb_git_remote_collection__each self 1 blk.

(** [remotes.delete(remote)], [remotes.delete(name)] *)
Definition rb_git_remote_collection_delete
  (self rb_name_or_remote : VALUE) : M VALUE :=
  let rb_repo := rugged_owner self in
  let rb_name_or_remote :=
    if rb_obj_is_kind_of rb_name_or_remote rb_cRuggedRemote
    then rb_git_remote_name rb_name_or_remote
    else rb_name_or_remote in
  if negb (ruby_type_eqb (TYPE rb_name_or_remote) T_STRING) then
    rb_raise (rb_eTypeError "Expecting a String or Rugged::Remote instance")
  else
    rugged_check_repo rb_repo ;;
    name <- StringValueCStr rb_name_or_remote ;;
    error <- git_remote_delete name ;;
    rugged_exception_check error ;;
    ret Qnil.

(** *** Contract-side descriptions of a run *)

(** The argument of [delete] as the closed variant of the contract, resolved
    to the name the store is asked to delete: a string, or a remote that
    carries a name. *)
Definition delete_target (arg : VALUE) : option string :=
  match arg with
  | RString name => Some name
  | RRemote _ r => remote_name r
  | _ => None
  end.

(** The block ran to completion on each of [vs] in turn, taking the
    configuration from [s] to [s']. *)
Inductive yields_ok (blk : block) : list VALUE -> S -> S -> Prop :=
| yields_ok_nil : forall s, yields_ok blk [] s s
| yields_ok_cons : forall v vs s s1 s',
    blk v s = (s1, 0) ->
    yields_ok blk vs s1 s' ->
    yields_ok blk (v :: vs) s s'.

(** Each of [names] in turn was loaded from the store and handed to the
    block, which ran to completion; [evs] is what that did, in order. *)
Inductive materialized_ok (rb_repo : VALUE) (blk : block)
  : list string -> S -> list event -> S -> Prop :=
| materialized_ok_nil : forall s, materialized_ok rb_repo blk [] s [] s
| materialized_ok_cons : forall name names s remote s1 evs s',
    store_load s name = GitOk remote ->
    blk (rugged_remote_new rb_repo remote) s = (s1, 0) ->
    materialized_ok rb_repo blk names s1 evs s' ->
    materialized_ok rb_repo blk (name :: names) s
      (StoreCall (CallLoad name)
         :: Yield (rugged_remote_new rb_repo remote) :: evs) s'.

(** A computation is blind to the trace when it only appends to it: what it
    does, returns and leaves as configuration depends on the configuration
    alone. *)
Definition trace_blind {A} (m : M A) : Prop :=
  forall s t,
    m {| config := s; trace := t |}
    = (let out := m {| config := s; trace := [] |} in
       ({| config := config (fst out); trace := t ++ trace (fst out) |},
        snd out)).

End Collection.

Arguments world S : clear implicits.
Arguments mk_world {S} config trace.
Arguments M S A : clear implicits.
Arguments block S : clear implicits.

(* ===================================================================== *)
(** ** A reference configuration store *)
(* ===================================================================== *)

Module SpecStore.

(** Modelled from the spec: ConfigStore, the remote functions of libgit2
    (vendored, not part of this file).  It persists remote name -> URL; names
    are listed in creation order; [loadRemote] fails with NotFound for an
    absent name; [createRemote] fails with AlreadyExists for a present name
    and with InvalidArgument for an empty one, and otherwise adds the record
    with a default fetch refspec; [createAnonymousRemote] persists nothing;
    [deleteRemote] removes the record and signals NotFound for an absent
    name. *)
Definition config_store : Type := list (string * string).

Fixpoint lookup (name : string) (cfg : config_store) : option string :=
  match cfg with
  | [] => None
  | (n, url) :: rest => if String.eqb n name then Some url else lookup name rest
  end.

Definition default_refspec (name : string) : string :=
  ("+refs/heads/*:refs/remotes/" ++ name ++ "/*")%string.

Definition named_remote (name url : string) : git_remote :=
  {| remote_name := Some name;
     remote_url := url;
     remote_pushurl := None;
     remote_refspecs := [default_refspec name] |}.

Definition anonymous_remote (url : string) : git_remote :=
  {| remote_name := None;
     remote_url := url;
     remote_pushurl := None;
     remote_refspecs := [] |}.

Definition listRemoteNames (cfg : config_store) : git_result (list string) :=
  GitOk (map fst cfg).

Definition loadRemote (cfg : config_store) (name : string)
  : git_result git_remote :=
  match lookup name cfg with
  | Some url => GitOk (named_remote name url)
  | None => GitErr GIT_ENOTFOUND
  end.

Definition createRemote (cfg : config_store) (name url : string)
  : config_store * git_result git_remote :=
  match lookup name cfg with
  | Some _ => (cfg, GitErr GIT_EEXISTS)
  | None =>
      if String.eqb name "" then (cfg, GitErr GIT_EINVALIDSPEC)
      else (cfg ++ [(name, url)], GitOk (named_remote name url))
  end.

Definition createAnonymousRemote (cfg : config_store) (url : string)
  : config_store * git_result git_remote :=
  (cfg, GitOk (anonymous_remote url)).

Definition deleteRemote (cfg : config_store) (name : string)
  : config_store * git_result unit :=
  match lookup name cfg with
  | Some _ =>
      (filter (fun entry => negb (String.eqb (fst entry) name)) cfg, GitOk tt)
  | None => (cfg, GitErr GIT_ENOTFOUND)
  end.

#[global] Instance store : ConfigStore config_store := {|
  store_list := listRemoteNames;
  store_load := loadRemote;
  store_create := createRemote;
  store_create_anonymous := createAnonymousRemote;
  store_delete := deleteRemote
|}.

End SpecStore.

(** A store whose configuration cannot be read or written: every call fails
    with the generic libgit2 error. *)
Module BrokenStore.

#[global] Instance store : ConfigStore unit := {|
  store_list := fun _ => GitErr GIT_ERROR;
  store_load := fun _ _ => GitErr GIT_ERROR;
  store_create := fun s _ _ => (s, GitErr GIT_ERROR);
  store_create_anonymous := fun s _ => (s, GitErr GIT_ERROR);
  store_delete := fun s _ => (s, GitErr GIT_ERROR)
|}.

End BrokenStore.

(* ===================================================================== *)
(** ** Sample inputs *)
(* ===================================================================== *)

Module Sample.

Definition live_repo : VALUE := RRepository true.
Definition closed_repo : VALUE := RRepository false.
Definition remotes : VALUE :=
  rb_git_remote_collection_initialize (RRemoteCollection Qnil) live_repo.
Definition stale_remotes : VALUE :=
  rb_git_remote_collection_initialize (RRemoteCollection Qnil) closed_repo.

(** Any non-empty URL is taken as well formed. *)
Definition valid_url (url : string) : bool := negb (String.eqb url "").

Definition abc : SpecStore.config_store :=
  [("a", "git://host/a.git"); ("b", "git://host/b.git");
   ("c", "git://host/c.git")].

Definition remote_a : git_remote :=
  SpecStore.named_remote "a" "git://host/a.git".
Definition remote_b : git_remote :=
  SpecStore.named_remote "b" "git://host/b.git".

Definition start {S : Type} (s : S) : world S :=
  {| config := s; trace := [] |}.

(** A block that does nothing. *)
Definition quiet : block SpecStore.config_store := fun _ s => (s, 0).

(** A block that removes remote "b" behind the iteration's back. *)
Definition drops_b : block SpecStore.config_store :=
  fun _ s => (fst (SpecStore.deleteRemote s "b"), 0).

(** A block that raises (state 6, [TAG_RAISE]) when handed "b" or the
    remote named "b". *)
Definition fails_on_b : block SpecStore.config_store :=
  fun v s =>
    match v with
    | RString "b" => (s, 6)
    | RRemote _ r =>
        match remote_name r with
        | Some "b" => (s, 6)
        | _ => (s, 0)
        end
    | _ => (s, 0)
    end.

End Sample.

(* ===================================================================== *)
(** ** Reading a trace *)
(* ===================================================================== *)



(* ===================================================================== *)
(** ** The method table *)
(* ===================================================================== *)

Section Dispatch.

Context {S : Type} {CS : ConfigStore S}.
Variable git_remote_valid_url : string -> bool.

(** A C function as [rb_define_method] takes it, by its [argc]: the receiver
    and that many arguments.  The block of the call, if any, is ambient
    ([rb_block_given_p]); only the two iterations look at it. *)
Inductive cfunc : Type :=
| Arity0 (f : VALUE -> option (block S) -> M S VALUE)
| Arity1 (f : VALUE -> VALUE -> option (block S) -> M S VALUE)
| Arity2 (f : VALUE -> VALUE -> VALUE -> option (block S) -> M S VALUE).

(** [Init_rugged_remote_collection]: the instance methods of
    [Rugged::RemoteCollection], in the order they are defined. *)
Definition Init_rugged_remote_collection : list (string * cfunc) :=
  [ ("initialize",
     Arity1 (fun self repo _ =>
               ret (rb_git_remote_collection_initialize self repo)));
    ("[]",
     Arity1 (fun self rb_name _ => rb_git_remote_collection_aref self rb_name));
    ("create",
     Arity2 (fun self rb_name rb_url _ =>
               rb_git_remote_collection_create git_remote_valid_url
                 self rb_name rb_url));
    ("create_anonymous",
     Arity1 (fun self rb_url _ =>
               rb_git_remote_collection_create_anonymous git_remote_valid_url
                 self rb_url));
    ("each", Arity0 rb_git_remote_collection_each);
    ("each_name", Arity0 rb_git_remote_collection_each_name);
    ("delete",
     Arity1 (fun self arg _ => rb_git_remote_collection_delete self arg)) ].

(** Ruby's method lookup in a table: a later definition of a name replaces
    an earlier one. *)
Fixpoint rb_method_entry (table : list (string * cfunc)) (mid : string)
  : option cfunc :=
  match table with
  | [] => None
  | (name, f) :: rest =>
      match rb_method_entry rest mid with
      | Some g => Some g
      | None => if String.eqb name mid then Some f else None
      end
  end.

(** Ruby's call of method [mid] on a collection with arguments [args] and an
    optional block; [None] where Ruby would not reach one of the functions
    above (another receiver, no such method, wrong number of arguments). *)
Definition rb_funcall_with_block
  (recv : VALUE) (mid : string) (args : list VALUE) (blk : option (block S))
  : option (M S VALUE) :=
  if rb_obj_is_kind_of recv rb_cRuggedRemoteCollection then
    match rb_method_entry Init_rugged_remote_collection mid, args with
    | Some (Arity0 f), [] => Some (f recv blk)
    | Some (Arity1 f), [a] => Some (f recv a blk)
    | Some (Arity2 f), [a; b] => Some (f recv a b blk)
    | _, _ => None
    end
  else None.

(** Ruby's [Enumerator#each] with a block, for an enumerator made by
    [to_enum(meth)]: call [meth] on the receiver with that block. *)
Definition enumerator_each (e : VALUE) (blk : block S) : option (M S VALUE) :=
  match e with
  | REnumerator recv (RSymbol mid) =>
      rb_funcall_with_block recv mid [] (Some blk)
  | _ => None
  end.

End Dispatch.

(** Two worlds that differ only in how their traces are bracketed. *)
Ltac same_world :=
  unfold log, ret; cbn [config trace fst snd];
  rewrite <- ?app_assoc; simpl; reflexivity.

(* ===================================================================== *)
(** ** Facts about error codes *)
(* ===================================================================== *)

Lemma git_error_value_negative (e : git_error_code) : git_error_value e < 0.
Proof. destruct e; simpl; lia. Qed.

(** [rugged_exception_check]'s test [error < 0] holds exactly for a failed
    call. *)
Lemma error_of_negative {A} (r : git_result A) :
  error_of r < 0 <-> exists e, r = GitErr e.
Proof.
  destruct r as [a | e]; simpl; split.
  - lia.
  - intros [e He]; discriminate.
  - intros _; now exists e.
  - intros _; apply git_error_value_negative.
Qed.

Lemma error_of_zero {A} (r : git_result A) :
  (error_of r =? 0) = true <-> exists a, r = GitOk a.
Proof.
  destruct r as [a | e]; simpl; split.
  - intros _; now exists a.
  - reflexivity.
  - pose proof (git_error_value_negative e). lia.
  - intros [a Ha]; discriminate.
Qed.

Lemma error_of_enotfound {A} (r : git_result A) :
  (error_of r =? git_error_value GIT_ENOTFOUND) = true
  <-> r = GitErr GIT_ENOTFOUND.
Proof.
  destruct r as [a | e]; simpl; split; try discriminate.
  - destruct e; simpl; intros H; try discriminate; reflexivity.
  - intros H; injection H as ->; reflexivity.
Qed.

(* ===================================================================== *)
(** ** Facts that hold over every configuration store *)
(* ===================================================================== *)

Section CollectionFacts.

Context {S : Type} {CS : ConfigStore S}.
Variable git_remote_valid_url : string -> bool.

Implicit Types (w : world S) (blk : block S) (self : VALUE).

(** *** The loops *)

Lemma each_name_loop_stopped blk strings exception w :
  exception <> 0 ->
  each_name_loop blk strings exception w = (w, Ok exception).
Proof.
  intros Hne. destruct strings as [| s rest]; simpl.
  - reflexivity.
  - destruct (Z.eqb_spec exception 0); [contradiction | reflexivity].
Qed.

Lemma each_loop_stopped_exception rb_repo blk strings error exception w :
  exception <> 0 ->
  each_loop rb_repo blk strings error exception w = (w, Ok (error, exception)).
Proof.
  intros Hne. destruct strings as [| s rest]; simpl.
  - reflexivity.
  - destruct (Z.eqb_spec exception 0); [contradiction | reflexivity].
Qed.

Lemma each_loop_stopped_error rb_repo blk strings e exception w :
  each_loop rb_repo blk strings (GitErr e) exception w
  = (w, Ok (GitErr e, exception)).
Proof.
  destruct strings as [| s rest]; simpl.
  - reflexivity.
  - pose proof (git_error_value_negative e) as Hneg.
    destruct (Z.eqb_spec (git_error_value e) 0); [lia |].
    now rewrite andb_false_r.
Qed.

(** Over a prefix the block completes on, the name loop hands over each name
    and carries on with the rest. *)
Lemma each_name_loop_prefix blk pre rest s1 :
  forall w,
    yields_ok blk (map rb_str_new_utf8 pre) (config w) s1 ->
    each_name_loop blk (pre ++ rest) 0 w
    = each_name_loop blk rest 0
        {| config := s1;
           trace := trace w ++ map Yield (map rb_str_new_utf8 pre) |}.
Proof.
  induction pre as [| p pre IH]; intros w Hrun; simpl in *.
  - inversion Hrun; subst. rewrite app_nil_r. now destruct w.
  - inversion Hrun as [| v vs s0 s2 s3 Hblk Hrest]; subst.
    unfold bind, rb_protect_yield. rewrite Hblk.
    rewrite IH by exact Hrest. simpl.
    rewrite <- !app_assoc. reflexivity.
Qed.

(** Over a prefix that loads and on which the block completes, the remote
    loop does exactly the recorded loads and yields and carries on. *)
Lemma each_loop_prefix rb_repo blk pre rest evs s1 :
  forall w,
    materialized_ok rb_repo blk pre (config w) evs s1 ->
    each_loop rb_repo blk (pre ++ rest) (GitOk tt) 0 w
    = each_loop rb_repo blk rest (GitOk tt) 0
        {| config := s1; trace := trace w ++ evs |}.
Proof.
  intros w Hrun. remember (config w) as s0 eqn:Hs0.
  revert w Hs0.
  induction Hrun as [s | name names s remote s2 evs s' Hload Hblk Hrun IH];
    intros w Hs0; subst; simpl.
  - rewrite app_nil_r. now destruct w.
  - unfold bind at 1. unfold git_remote_load at 1. rewrite Hload.
    unfold bind at 1. unfold rb_protect_yield at 1. simpl.
    rewrite Hblk.
    rewrite IH by reflexivity. simpl.
    rewrite <- !app_assoc. reflexivity.
Qed.

(** *** Iteration *)

(** The world in which the loop of [each] / [each_name] starts: the list of
    names has been read. *)
Lemma each_prologue self only_names blk w remotes :
  isRepositoryValid (rugged_owner self) = true ->
  store_list (config w) = GitOk remotes ->
  rb_git_remote_collection__each self only_names (Some blk) w
  = match
      (if negb (only_names =? 0) then
         bind (each_name_loop blk remotes 0)
           (fun exception => ret (GitOk tt, exception))
       else each_loop (rugged_owner self) blk remotes (GitOk tt) 0)
        (log (StoreCall CallList) w)
    with
    | (w', Ok (error, exception)) =>
        if negb (exception =? 0) then (w', Abort (JumpTag exception))
        else
          match error with
          | GitOk _ => (w', Ok Qnil)
          | GitErr e => (w', Abort (Raise (rb_eRuggedError e)))
          end
    | (w', Abort u) => (w', Abort u)
    end.
Proof.
  intros Hlive Hlist.
  unfold rb_git_remote_collection__each, rugged_check_repo.
  rewrite Hlive. unfold bind at 1. unfold ret at 1.
  unfold bind at 1. unfold git_remote_list at 1. rewrite Hlist.
  unfold bind at 1. unfold rugged_exception_check at 1. unfold ret at 1.
  unfold bind at 1.
  destruct (negb (only_names =? 0)).
  all: match goal with
       | |- context [match ?run with _ => _ end] =>
           destruct run as [w' [[error exception] | u]]
       end.
  all: try reflexivity.
  all: destruct (negb (exception =? 0)); [reflexivity |].
  all: destruct error; reflexivity.
Qed.

(** C1 — full-handle iteration ([each] with a block): when loading the remote
    for a snapshot name fails — with NotFound because the name was removed
    after the snapshot was taken, or with any other store error — the
    iteration ends there: the last thing it did is the failed load, nothing is
    loaded or yielded for the names after it, and the call raises that store
    error. *)
Theorem each_aborts_on_failed_materialization :
  forall self blk w pre name post evs s1 e,
    isRepositoryValid (rugged_owner self) = true ->
    store_list (config w) = GitOk (pre ++ name :: post) ->
    materialized_ok (rugged_owner self) blk pre (config w) evs s1 ->
    store_load s1 name = GitErr e ->
    rb_git_remote_collection_each self (Some blk) w
    = ({| config := s1;
          trace := trace w ++ StoreCall CallList
                     :: evs ++ [StoreCall (CallLoad name)] |},
       Abort (Raise (rb_eRuggedError e)))
    /\ (e = GIT_ENOTFOUND -> classify (rb_eRuggedError e) = NotFound).
Proof.
  intros self blk w pre name post evs s1 e Hlive Hlist Hrun Hload.
  split; [| intros ->; reflexivity].
  unfold rb_git_remote_collection_each.
  rewrite (each_prologue _ _ _ _ _ Hlive Hlist).
  change (negb (0 =? 0)) with false. cbv iota.
  rewrite (each_loop_prefix _ _ _ _ evs s1) by exact Hrun.
  simpl each_loop. unfold bind at 1. unfold git_remote_load at 1.
  cbn [config]. rewrite Hload.
  rewrite each_loop_stopped_error. same_world.
Qed.

(** C2 — both iteration modes with a block: when the block ends by a
    non-local exit (an exception, or [break] / [throw]) on a snapshot name,
    that yield is the last thing the call does — no later name is loaded or
    yielded — and the call resumes the block's own unwinding with
    [rb_jump_tag] on the very state [rb_protect] caught. *)
Theorem each_propagates_block_failure :
  forall self blk w pre name post state,
    isRepositoryValid (rugged_owner self) = true ->
    store_list (config w) = GitOk (pre ++ name :: post) ->
    state <> 0 ->
    (forall s1 s2,
        yields_ok blk (map rb_str_new_utf8 pre) (config w) s1 ->
        blk (rb_str_new_utf8 name) s1 = (s2, state) ->
        rb_git_remote_collection_each_name self (Some blk) w
        = ({| config := s2;
              trace := trace w ++ StoreCall CallList
                         :: map Yield (map rb_str_new_utf8 pre)
                         ++ [Yield (rb_str_new_utf8 name)] |},
           Abort (JumpTag state)))
    /\
    (forall evs s1 remote s2,
        materialized_ok (rugged_owner self) blk pre (config w) evs s1 ->
        store_load s1 name = GitOk remote ->
        blk (rugged_remote_new (rugged_owner self) remote) s1 = (s2, state) ->
        rb_git_remote_collection_each self (Some blk) w
        = ({| config := s2;
              trace := trace w ++ StoreCall CallList
                         :: evs
                         ++ [StoreCall (CallLoad name);
                             Yield (rugged_remote_new (rugged_owner self) remote)] |},
           Abort (JumpTag state))).
Proof.
  intros self blk w pre name post state Hlive Hlist Hstate.
  assert (Hnz : negb (state =? 0) = true).
  { destruct (Z.eqb_spec state 0); [contradiction | reflexivity]. }
  split.
  - intros s1 s2 Hrun Hblk.
    unfold rb_git_remote_collection_each_name.
    rewrite (each_prologue _ _ _ _ _ Hlive Hlist).
    change (negb (1 =? 0)) with true. cbv iota.
    unfold bind at 1.
    rewrite (each_name_loop_prefix _ _ _ s1) by exact Hrun.
    simpl each_name_loop. unfold bind at 1. unfold rb_protect_yield at 1.
    cbn [config]. rewrite Hblk.
    rewrite each_name_loop_stopped by exact Hstate.
    unfold ret. rewrite Hnz. same_world.
  - intros evs s1 remote s2 Hrun Hload Hblk.
    unfold rb_git_remote_collection_each.
    rewrite (each_prologue _ _ _ _ _ Hlive Hlist).
    change (negb (0 =? 0)) with false. cbv iota.
    rewrite (each_loop_prefix _ _ _ _ evs s1) by exact Hrun.
    simpl each_loop. unfold bind at 1. unfold git_remote_load at 1.
    cbn [config]. rewrite Hload. cbv iota.
    unfold bind at 1. unfold rb_protect_yield at 1. unfold log.
    cbn [config trace]. rewrite Hblk.
    rewrite each_loop_stopped_exception by exact Hstate.
    rewrite Hnz. same_world.
Qed.

(** Name-only iteration over a snapshot the block completes on. *)
Lemma each_name_completes self blk w names s' :
  isRepositoryValid (rugged_owner self) = true ->
  store_list (config w) = GitOk names ->
  yields_ok blk (map rb_str_new_utf8 names) (config w) s' ->
  rb_git_remote_collection_each_name self (Some blk) w
  = ({| config := s';
        trace := trace w ++ StoreCall CallList
                   :: map Yield (map rb_str_new_utf8 names) |},
     Ok Qnil).
Proof.
  intros Hlive Hlist Hrun.
  unfold rb_git_remote_collection_each_name.
  rewrite (each_prologue _ _ _ _ _ Hlive Hlist).
  change (negb (1 =? 0)) with true. cbv iota.
  unfold bind at 1.
  rewrite <- (app_nil_r names) at 1.
  rewrite (each_name_loop_prefix _ _ _ s') by exact Hrun.
  same_world.
Qed.

(** A block that never fails completes on any list of names, taking the
    configuration through each of its calls in turn. *)
Lemma never_failing_block_run blk :
  (forall v s, snd (blk v s) = 0) ->
  forall names s,
    yields_ok blk (map rb_str_new_utf8 names) s
      (fold_left (fun cfg name => fst (blk (RString name) cfg)) names s).
Proof.
  intros Hok names. induction names as [| name names IH]; intros s; simpl.
  - constructor.
  - apply yields_ok_cons with (s1 := fst (blk (RString name) s)).
    + specialize (Hok (RString name) s).
      unfold rb_str_new_utf8.
      destruct (blk (RString name) s) as [s1 state]. simpl in *. now subst.
    + apply IH.
Qed.

(** C4 — name-only iteration ([each_name] with a block) over a snapshot that
    was read successfully, with a block that never fails: the block is run on
    exactly the snapshot's names, each once, in snapshot order and verbatim —
    the configuration the call leaves is the one those runs of the block
    produce, in that order — nothing else is yielded or asked of the store,
    and the call returns nil.  For an empty snapshot that is no yield at all
    and nil. *)
Theorem each_name_visits_snapshot_in_order :
  forall self blk w names,
    isRepositoryValid (rugged_owner self) = true ->
    store_list (config w) = GitOk names ->
    (forall v s, snd (blk v s) = 0) ->
    let out := rb_git_remote_collection_each_name self (Some blk) w in
    out
    = ({| config :=
            fold_left (fun cfg name => fst (blk (RString name) cfg))
              names (config w);
          trace := trace w ++ StoreCall CallList
                     :: map (fun name => Yield (RString name)) names |},
       Ok Qnil)
    /\ (names = [] -> out = (log (StoreCall CallList) w, Ok Qnil)).
Proof.
  intros self blk w names Hlive Hlist Hok out.
  assert (Hout : out
                 = ({| config :=
                         fold_left (fun cfg name => fst (blk (RString name) cfg))
                           names (config w);
                       trace := trace w ++ StoreCall CallList
                                  :: map (fun name => Yield (RString name)) names |},
                    Ok Qnil)).
  { subst out.
    rewrite (each_name_completes _ _ _ _ _ Hlive Hlist
               (never_failing_block_run blk Hok names (config w))).
    now rewrite map_map. }
  split; [exact Hout |].
  intros ->. rewrite Hout. reflexivity.
Qed.

(** *** Lookup *)

(** C3 — lookup ([remotes[name]]) returns nil exactly when the store reports
    that no remote of that name exists; any other failure of the store is
    raised as that error and never turned into nil; a successful load is
    returned as a remote. *)
Theorem aref_nil_exactly_on_notfound :
  forall self name w,
    isRepositoryValid (rugged_owner self) = true ->
    has_nul name = false ->
    let out := rb_git_remote_collection_aref self (RString name) w in
    (snd out = Ok Qnil <-> store_load (config w) name = GitErr GIT_ENOTFOUND)
    /\ (forall e,
          store_load (config w) name = GitErr e ->
          e <> GIT_ENOTFOUND ->
          snd out = Abort (Raise (rb_eRuggedError e)))
    /\ (forall remote,
          store_load (config w) name = GitOk remote ->
          snd out = Ok (rugged_remote_new (rugged_owner self) remote)).
Proof.
  intros self name w Hlive Hnul out. subst out.
  unfold rb_git_remote_collection_aref, rugged_check_repo, Check_Type,
    StringValueCStr, git_remote_load, bind, ret.
  rewrite Hlive, Hnul. cbn [TYPE ruby_type_eqb].
  destruct (store_load (config w) name) as [remote | e] eqn:Hload.
  - simpl. repeat split; try discriminate.
    intros remote' H. now injection H as ->.
  - destruct (error_of (GitErr e) =? git_error_value GIT_ENOTFOUND) eqn:Hcode.
    + apply (error_of_enotfound (A := git_remote)) in Hcode.
      injection Hcode as ->. simpl. repeat split; try discriminate.
      intros e' H Hne. now injection H as <-.
    + simpl. split; [split |].
      * discriminate.
      * intros H. rewrite H in Hcode. discriminate.
      * split; [| discriminate].
        intros e' H _. now injection H as ->.
Qed.

(** Nil comes from nowhere else: whatever the receiver and the argument, a
    lookup that returns nil has asked the store and was told NotFound. *)
Lemma aref_nil_only_on_notfound self rb_name w :
  snd (rb_git_remote_collection_aref self rb_name w) = Ok Qnil ->
  exists name,
    rb_name = RString name
    /\ store_load (config w) name = GitErr GIT_ENOTFOUND.
Proof.
  unfold rb_git_remote_collection_aref, rugged_check_repo, Check_Type,
    StringValueCStr, git_remote_load, bind, ret.
  destruct (isRepositoryValid (rugged_owner self)); [| discriminate].
  destruct rb_name; simpl; try discriminate.
  destruct (has_nul s); [discriminate |]. simpl.
  destruct (store_load (config w) s) as [remote | e] eqn:Hload.
  - simpl. discriminate.
  - destruct (error_of (A := git_remote) (GitErr e)
              =? git_error_value GIT_ENOTFOUND) eqn:Hcode.
    + apply error_of_enotfound in Hcode.
      intros _. exists s. split; [reflexivity |]. rewrite Hload. exact Hcode.
    + simpl in Hcode |- *. rewrite Hcode. discriminate.
Qed.

(** *** Deletion *)

(** An argument that is neither a string nor a remote with a name is refused
    with a type error before anything else is looked at. *)
Lemma delete_rejects_other_arguments self arg w :
  delete_target arg = None ->
  rb_git_remote_collection_delete self arg w
  = (w, Abort (Raise
                 (rb_eTypeError "Expecting a String or Rugged::Remote instance"))).
Proof.
  intros Htarget. unfold rb_git_remote_collection_delete.
  destruct arg; try reflexivity; simpl in Htarget.
  - discriminate.
  - simpl. rewrite Htarget. reflexivity.
Qed.

(** A remote with a name is deleted as its name is. *)
Lemma delete_resolves_target self arg name w :
  delete_target arg = Some name ->
  rb_git_remote_collection_delete self arg w
  = rb_git_remote_collection_delete self (RString name) w.
Proof.
  intros Htarget. unfold rb_git_remote_collection_delete.
  destruct arg; simpl in Htarget; try discriminate.
  - now injection Htarget as ->.
  - simpl. rewrite Htarget. reflexivity.
Qed.

(** C6 — [delete] takes a name or a remote.  A remote that carries a name is
    deleted exactly as that name is; for a name (no NUL byte, live
    repository) the store is asked once to delete it and its answer is the
    call's outcome; an argument that is neither a string nor a remote with a
    name — an anonymous remote in particular — fails with a type error of the
    InvalidArgument class. *)
Theorem delete_accepts_name_or_named_remote :
  forall self arg w,
    (forall name,
        delete_target arg = Some name ->
        rb_git_remote_collection_delete self arg w
        = rb_git_remote_collection_delete self (RString name) w
        /\ (isRepositoryValid (rugged_owner self) = true ->
            has_nul name = false ->
            rb_git_remote_collection_delete self arg w
            = ({| config := fst (store_delete (config w) name);
                  trace := trace w ++ [StoreCall (CallDelete name)] |},
               match snd (store_delete (config w) name) with
               | GitOk _ => Ok Qnil
               | GitErr e => Abort (Raise (rb_eRuggedError e))
               end)))
    /\ (delete_target arg = None ->
        exists msg,
          rb_git_remote_collection_delete self arg w
          = (w, Abort (Raise (rb_eTypeError msg)))
          /\ classify (rb_eTypeError msg) = InvalidArgument)
    /\ (forall owner remote,
          arg = RRemote owner remote ->
          remote_name remote = None ->
          exists msg,
            rb_git_remote_collection_delete self arg w
            = (w, Abort (Raise (rb_eTypeError msg)))).
Proof.
  intros self arg w. split; [| split].
  - intros name Htarget.
    rewrite (delete_resolves_target _ _ _ _ Htarget).
    split; [reflexivity |].
    intros Hlive Hnul.
    unfold rb_git_remote_collection_delete, rugged_check_repo,
      StringValueCStr, git_remote_delete, bind, ret.
    cbn [rb_obj_is_kind_of TYPE ruby_type_eqb negb].
    rewrite Hlive, Hnul.
    destruct (store_delete (config w) name) as [s' [u | e]]; reflexivity.
  - intros Htarget. eexists. split.
    + apply delete_rejects_other_arguments. exact Htarget.
    + reflexivity.
  - intros owner remote -> Hname. eexists.
    apply delete_rejects_other_arguments. exact Hname.
Qed.

(** C10 — in [delete] the check of the argument comes before the check of the
    repository: an argument that is neither a string nor a remote with a name
    fails with the type error (InvalidArgument class) and leaves the world
    untouched — no store call — whatever the state of the repository; with a
    repository that is no longer live the outcome is still the type error,
    not RepositoryUnavailable. *)
Theorem delete_checks_argument_before_repository :
  forall self arg w,
    delete_target arg = None ->
    let out := rb_git_remote_collection_delete self arg w in
    fst out = w
    /\ (exists msg,
          snd out = Abort (Raise (rb_eTypeError msg))
          /\ classify (rb_eTypeError msg) = InvalidArgument)
    /\ (isRepositoryValid (rugged_owner self) = false ->
        snd out <> Abort (Raise rb_eRepositoryUnavailable)).
Proof.
  intros self arg w Htarget out. subst out.
  rewrite (delete_rejects_other_arguments _ _ _ Htarget). simpl.
  split; [reflexivity |]. split.
  - eexists. split; reflexivity.
  - intros _. discriminate.
Qed.

(** *** A repository that is no longer live *)

(** C5 (amended) — on a collection whose repository is not live no operation
    calls the store or changes anything; [create], [create_anonymous],
    lookup, [each] and [each_name] with a block, and [delete] of a name or of
    a remote with a name fail with RepositoryUnavailable; [delete] of anything
    else fails with the type error instead, its argument check coming
    first. *)
Theorem dead_repository_stops_every_operation :
  forall self w,
    isRepositoryValid (rugged_owner self) = false ->
    let unavailable := (w, Abort (Raise rb_eRepositoryUnavailable)) in
    (forall rb_name rb_url,
        rb_git_remote_collection_create git_remote_valid_url
          self rb_name rb_url w = unavailable)
    /\ (forall rb_url,
          rb_git_remote_collection_create_anonymous git_remote_valid_url
            self rb_url w = unavailable)
    /\ (forall rb_name, rb_git_remote_collection_aref self rb_name w = unavailable)
    /\ (forall blk, rb_git_remote_collection_each self (Some blk) w = unavailable)
    /\ (forall blk,
          rb_git_remote_collection_each_name self (Some blk) w = unavailable)
    /\ (forall arg name,
          delete_target arg = Some name ->
          rb_git_remote_collection_delete self arg w = unavailable)
    /\ (forall arg,
          delete_target arg = None ->
          exists msg,
            rb_git_remote_collection_delete self arg w
            = (w, Abort (Raise (rb_eTypeError msg))))
    /\ (forall arg, fst (rb_git_remote_collection_delete self arg w) = w)
    /\ (forall only_names,
          fst (rb_git_remote_collection__each self only_names None w) = w).
Proof.
  intros self w Hdead unavailable. subst unavailable.
  assert (Hname : forall name,
             rb_git_remote_collection_delete self (RString name) w
             = (w, Abort (Raise rb_eRepositoryUnavailable))).
  { intros name.
    unfold rb_git_remote_collection_delete, rugged_check_repo, bind.
    cbn [rb_obj_is_kind_of TYPE ruby_type_eqb negb].
    now rewrite Hdead. }
  repeat split.
  - intros. unfold rb_git_remote_collection_create, rugged_check_repo, bind.
    now rewrite Hdead.
  - intros. unfold rb_git_remote_collection_create_anonymous,
      rugged_check_repo, bind.
    now rewrite Hdead.
  - intros. unfold rb_git_remote_collection_aref, rugged_check_repo, bind.
    now rewrite Hdead.
  - intros. unfold rb_git_remote_collection_each,
      rb_git_remote_collection__each, rugged_check_repo, bind.
    now rewrite Hdead.
  - intros. unfold rb_git_remote_collection_each_name,
      rb_git_remote_collection__each, rugged_check_repo, bind.
    now rewrite Hdead.
  - intros arg name Htarget.
    rewrite (delete_resolves_target _ _ _ _ Htarget). apply Hname.
  - intros arg Htarget. eexists.
    apply delete_rejects_other_arguments. exact Htarget.
  - intros arg. destruct (delete_target arg) as [name |] eqn:Htarget.
    + rewrite (delete_resolves_target _ _ _ _ Htarget), Hname. reflexivity.
    + now rewrite (delete_rejects_other_arguments _ _ _ Htarget).
  - intros only_names. unfold rb_git_remote_collection__each.
    destruct (negb (only_names =? 0)); reflexivity.
Qed.

(** *** The trace is write-only *)

Lemma ret_blind {A} (a : A) : trace_blind (S := S) (ret a).
Proof. intros s t. unfold ret. simpl. now rewrite app_nil_r. Qed.

Lemma rb_raise_blind {A} e : trace_blind (S := S) (A := A) (rb_raise e).
Proof. intros s t. unfold rb_raise. simpl. now rewrite app_nil_r. Qed.

Lemma rb_jump_tag_blind {A} state :
  trace_blind (S := S) (A := A) (rb_jump_tag state).
Proof. intros s t. unfold rb_jump_tag. simpl. now rewrite app_nil_r. Qed.

Lemma bind_blind {A B} (m : M S A) (k : A -> M S B) :
  trace_blind m -> (forall a, trace_blind (k a)) -> trace_blind (bind m k).
Proof.
  intros Hm Hk s t. unfold bind. rewrite (Hm s t).
  destruct (m {| config := s; trace := [] |}) as [[s1 t1] [a | u]]; simpl.
  - rewrite (Hk a s1 (t ++ t1)), (Hk a s1 t1). simpl.
    now rewrite app_assoc.
  - reflexivity.
Qed.

Lemma rugged_check_repo_blind rb_repo :
  trace_blind (S := S) (rugged_check_repo rb_repo).
Proof.
  unfold rugged_check_repo.
  destruct (isRepositoryValid rb_repo); [apply ret_blind | apply rb_raise_blind].
Qed.

Lemma rugged_exception_check_blind {A} (r : git_result A) :
  trace_blind (S := S) (rugged_exception_check r).
Proof. destruct r; [apply ret_blind | apply rb_raise_blind]. Qed.

Lemma git_remote_list_blind : trace_blind git_remote_list.
Proof. intros s t. reflexivity. Qed.

Lemma git_remote_load_blind name : trace_blind (git_remote_load name).
Proof. intros s t. reflexivity. Qed.

Lemma rb_protect_yield_blind blk v : trace_blind (rb_protect_yield blk v).
Proof.
  intros s t. unfold rb_protect_yield. simpl.
  destruct (blk v s); reflexivity.
Qed.

Lemma each_name_loop_blind blk strings :
  forall exception, trace_blind (each_name_loop blk strings exception).
Proof.
  induction strings as [| name rest IH]; intros exception; simpl.
  - apply ret_blind.
  - destruct (exception =? 0); [| apply ret_blind].
    apply bind_blind; [apply rb_protect_yield_blind | intros; apply IH].
Qed.

Lemma each_loop_blind rb_repo blk strings :
  forall error exception,
    trace_blind (each_loop rb_repo blk strings error exception).
Proof.
  induction strings as [| name rest IH]; intros error exception; simpl.
  - apply ret_blind.
  - destruct ((exception =? 0) && (error_of error =? 0)); [| apply ret_blind].
    apply bind_blind; [apply git_remote_load_blind |].
    intros [remote | e]; [| apply IH].
    apply bind_blind; [apply rb_protect_yield_blind | intros; apply IH].
Qed.

(** Both iterations do, return and leave behind the same whatever the trace
    already holds. *)
Lemma each_blind self only_names (given : option (block S)) :
  trace_blind (rb_git_remote_collection__each self only_names given).
Proof.
  unfold rb_git_remote_collection__each.
  destruct given as [blk |].
  - apply bind_blind; [apply rugged_check_repo_blind | intros _].
    apply bind_blind; [apply git_remote_list_blind | intros listed].
    apply bind_blind; [apply rugged_exception_check_blind | intros remotes].
    apply bind_blind.
    + destruct (negb (only_names =? 0)).
      * apply bind_blind; [apply each_name_loop_blind | intros; apply ret_blind].
      * apply each_loop_blind.
    + intros [error exception].
      destruct (negb (exception =? 0)); [apply rb_jump_tag_blind |].
      apply bind_blind;
        [apply rugged_exception_check_blind | intros; apply ret_blind].
  - destruct (negb (only_names =? 0)); apply ret_blind.
Qed.

(** Two worlds with the same configuration are the same to an iteration, up
    to the trace they start from. *)
Lemma each_same_configuration self only_names (given : option (block S)) w1 w2 :
  config w1 = config w2 ->
  exists s' evs r,
    rb_git_remote_collection__each self only_names given w1
    = ({| config := s'; trace := trace w1 ++ evs |}, r)
    /\ rb_git_remote_collection__each self only_names given w2
       = ({| config := s'; trace := trace w2 ++ evs |}, r).
Proof.
  destruct w1 as [s t1], w2 as [s2 t2]. simpl. intros <-.
  pose proof (each_blind self only_names given) as Hblind.
  rewrite (Hblind s t1), (Hblind s t2).
  destruct (rb_git_remote_collection__each self only_names given
              {| config := s; trace := [] |}) as [[s' evs] r].
  exists s', evs, r. simpl. split; reflexivity.
Qed.

End CollectionFacts.

(* ===================================================================== *)
(** ** Facts over the reference configuration store *)
(* ===================================================================== *)

Section ReferenceStoreFacts.

Import SpecStore.

Variable git_remote_valid_url : string -> bool.

Implicit Types (w : world config_store) (cfg : config_store).



Lemma loadRemote_present cfg name record :
  loadRemote cfg name = GitOk record -> exists url, lookup name cfg = Some url.
Proof.
  unfold loadRemote. destruct (lookup name cfg) as [url |]; [| discriminate].
  intros _. now exists url.
Qed.

(** C7 — [create_anonymous] with a well-formed URL returns a remote that has
    no name and the given URL, asks the store for an anonymous remote and
    nothing else, and leaves the configuration as it was: the list of remote
    names is unchanged, and any iteration run afterwards does, yields and
    returns exactly what it would have without the call. *)
Theorem create_anonymous_persists_nothing :
  forall self url w,
    isRepositoryValid (rugged_owner self) = true ->
    has_nul url = false ->
    git_remote_valid_url url = true ->
    let out :=
      rb_git_remote_collection_create_anonymous git_remote_valid_url
        self (RString url) w in
    (exists remote,
        snd out = Ok (RRemote (rugged_owner self) remote)
        /\ remote_name remote = None
        /\ remote_url remote = url)
    /\ config (fst out) = config w
    /\ trace (fst out) = trace w ++ [StoreCall (CallCreateAnonymous url)]
    /\ store_list (config (fst out)) = store_list (config w)
    /\ (forall self' only_names given,
          exists cfg' evs r,
            rb_git_remote_collection__each self' only_names given w
            = ({| config := cfg'; trace := trace w ++ evs |}, r)
            /\ rb_git_remote_collection__each self' only_names given (fst out)
               = ({| config := cfg'; trace := trace (fst out) ++ evs |}, r)).
Proof.
  intros self url w Hlive Hnul Hvalid out.
  assert (Hout : out
                 = ({| config := config w;
                       trace := trace w ++ [StoreCall (CallCreateAnonymous url)] |},
                    Ok (RRemote (rugged_owner self) (anonymous_remote url)))).
  { subst out.
    unfold rb_git_remote_collection_create_anonymous, rugged_check_repo,
      Check_Type, rugged_validate_remote_url, StringValueCStr,
      git_remote_create_anonymous, rugged_exception_check, bind, ret.
    rewrite Hlive, Hnul. cbn [TYPE ruby_type_eqb]. rewrite Hvalid.
    reflexivity. }
  rewrite Hout. cbn [fst snd config trace].
  split; [| split; [| split; [| split]]]; try reflexivity.
  - exists (anonymous_remote url). repeat split.
  - intros self' only_names given.
    destruct (each_same_configuration self' only_names given w
                {| config := config w;
                   trace := trace w ++ [StoreCall (CallCreateAnonymous url)] |}
                eq_refl) as (cfg' & evs & r & H1 & H2).
    exists cfg', evs, r. split; assumption.
Qed.


(** C9 — [create] with a name that already is a remote fails with
    AlreadyExists and leaves the configuration, and so the record of that
    remote, as it was. *)
Theorem create_rejects_existing_name :
  forall self name url w record,
    isRepositoryValid (rugged_owner self) = true ->
    has_nul name = false ->
    has_nul url = false ->
    git_remote_valid_url url = true ->
    store_load (config w) name = GitOk record ->
    let out :=
      rb_git_remote_collection_create git_remote_valid_url
        self (RString name) (RString url) w in
    snd out = Abort (Raise (rb_eRuggedError GIT_EEXISTS))
    /\ classify (rb_eRuggedError GIT_EEXISTS) = AlreadyExists
    /\ config (fst out) = config w
    /\ store_load (config (fst out)) name = GitOk record.
Proof.
  intros self name url w record Hlive Hname Hurl Hvalid Hpresent out.
  destruct (loadRemote_present _ _ _ Hpresent) as [old Hold].
  assert (Hout : out
                 = ({| config := config w;
                       trace := trace w ++ [StoreCall (CallCreate name url)] |},
                    Abort (Raise (rb_eRuggedError GIT_EEXISTS)))).
  { subst out.
    unfold rb_git_remote_collection_create, rugged_check_repo, Check_Type,
      rugged_validate_remote_url, StringValueCStr, git_remote_create,
      rugged_exception_check, bind, ret.
    rewrite Hlive, Hname, Hurl. cbn [TYPE ruby_type_eqb]. rewrite Hvalid.
    cbn [store_create store]. unfold createRemote.
    rewrite Hold. reflexivity. }
  rewrite Hout. cbn [fst snd config].
  repeat split. exact Hpresent.
Qed.

End ReferenceStoreFacts.

(* ===================================================================== *)
(** ** Worked runs *)
(* ===================================================================== *)

Section WorkedRuns.

Import Sample.

(** [each] over a, b, c while the block removes "b" on its first call: the
    load of "b" fails with NotFound, "c" is never looked at. *)
Lemma each_aborts_on_failed_materialization_witness :
  rb_git_remote_collection_each remotes (Some drops_b) (start abc)
  = ({| config := [("a", "git://host/a.git"); ("c", "git://host/c.git")];
        trace := [StoreCall CallList;
                  StoreCall (CallLoad "a"); Yield (RRemote live_repo remote_a);
                  StoreCall (CallLoad "b")] |},
     Abort (Raise (rb_eRuggedError GIT_ENOTFOUND))).
Proof.
  refine (proj1 (each_aborts_on_failed_materialization
                   remotes drops_b (start abc) ["a"] "b" ["c"]
                   [StoreCall (CallLoad "a"); Yield (RRemote live_repo remote_a)]
                   [("a", "git://host/a.git"); ("c", "git://host/c.git")]
                   GIT_ENOTFOUND _ _ _ _)).
  - reflexivity.
  - reflexivity.
  - eapply materialized_ok_cons.
    + reflexivity.
    + reflexivity.
    + apply materialized_ok_nil.
  - reflexivity.
Defined.

(** [each_name] and [each] over a, b, c with a block that raises on "b". *)
Lemma each_propagates_block_failure_witness :
  rb_git_remote_collection_each_name remotes (Some fails_on_b) (start abc)
  = ({| config := abc;
        trace := [StoreCall CallList; Yield (RString "a"); Yield (RString "b")] |},
     Abort (JumpTag 6))
  /\ rb_git_remote_collection_each remotes (Some fails_on_b) (start abc)
     = ({| config := abc;
           trace := [StoreCall CallList;
                     StoreCall (CallLoad "a"); Yield (RRemote live_repo remote_a);
                     StoreCall (CallLoad "b"); Yield (RRemote live_repo remote_b)] |},
        Abort (JumpTag 6)).
Proof.
  assert (Hstate : 6 <> 0) by discriminate.
  pose proof (each_propagates_block_failure
                remotes fails_on_b (start abc) ["a"] "b" ["c"] 6
                eq_refl eq_refl Hstate) as [Hnames Hremotes].
  split.
  - apply (Hnames abc abc).
    + eapply yields_ok_cons; [reflexivity | apply yields_ok_nil].
    + reflexivity.
  - apply (Hremotes
             [StoreCall (CallLoad "a"); Yield (RRemote live_repo remote_a)]
             abc remote_b abc).
    + eapply materialized_ok_cons;
        [reflexivity | reflexivity | apply materialized_ok_nil].
    + reflexivity.
    + reflexivity.
Defined.

(** Lookup against a store that cannot be read: the store's error is raised. *)
Lemma aref_nil_exactly_on_notfound_witness :
  snd (rb_git_remote_collection_aref (CS := BrokenStore.store)
         remotes (RString "origin") (start tt))
  = Abort (Raise (rb_eRuggedError GIT_ERROR)).
Proof.
  refine (proj1 (proj2 (aref_nil_exactly_on_notfound (CS := BrokenStore.store)
                          remotes "origin" (start tt) eq_refl eq_refl))
            GIT_ERROR eq_refl _).
  discriminate.
Defined.

(** [each_name] over a, b, c with a block that never fails and removes "b":
    all three names of the snapshot are yielded, and the configuration is
    left as the block made it. *)
Lemma each_name_visits_snapshot_in_order_witness :
  rb_git_remote_collection_each_name remotes (Some drops_b) (start abc)
  = ({| config := [("a", "git://host/a.git"); ("c", "git://host/c.git")];
        trace := [StoreCall CallList;
                  Yield (RString "a"); Yield (RString "b"); Yield (RString "c")] |},
     Ok Qnil).
Proof.
  exact (proj1 (each_name_visits_snapshot_in_order
                  remotes drops_b (start abc) ["a"; "b"; "c"]
                  eq_refl eq_refl (fun _ _ => eq_refl))).
Defined.

(** Every operation on a collection whose repository was closed. *)
Lemma dead_repository_stops_every_operation_witness :
  rb_git_remote_collection_aref stale_remotes (RString "a") (start abc)
  = (start abc, Abort (Raise rb_eRepositoryUnavailable))
  /\ rb_git_remote_collection_delete stale_remotes (RString "a") (start abc)
     = (start abc, Abort (Raise rb_eRepositoryUnavailable)).
Proof.
  pose proof (dead_repository_stops_every_operation valid_url
                stale_remotes (start abc) eq_refl)
    as (_ & _ & Haref & _ & _ & Hdelete & _ & _ & _).
  split.
  - apply Haref.
  - apply (Hdelete (RString "a") "a"). reflexivity.
Defined.

(** Deleting remote "a" through a handle. *)
Lemma delete_accepts_name_or_named_remote_witness :
  rb_git_remote_collection_delete remotes (RRemote live_repo remote_a) (start abc)
  = ({| config := [("b", "git://host/b.git"); ("c", "git://host/c.git")];
        trace := [StoreCall (CallDelete "a")] |},
     Ok Qnil).
Proof.
  exact (proj2 (proj1 (delete_accepts_name_or_named_remote
                         remotes (RRemote live_repo remote_a) (start abc))
                  "a" eq_refl)
           eq_refl eq_refl).
Defined.

(** Deleting a number on a collection whose repository was closed. *)
Lemma delete_checks_argument_before_repository_witness :
  fst (rb_git_remote_collection_delete stale_remotes (RFixnum 7) (start abc))
  = start abc
  /\ snd (rb_git_remote_collection_delete stale_remotes (RFixnum 7) (start abc))
     <> Abort (Raise rb_eRepositoryUnavailable).
Proof.
  pose proof (delete_checks_argument_before_repository
                stale_remotes (RFixnum 7) (start abc) eq_refl) as H.
  exact (conj (proj1 H) (proj2 (proj2 H) eq_refl)).
Defined.

(** C5 as stated fails for [delete]: with a closed repository and an argument
    that is not a name, the call ends with the type error, not with
    RepositoryUnavailable. *)
Lemma dead_repository_delete_counterexample :
  isRepositoryValid (rugged_owner stale_remotes) = false
  /\ rb_git_remote_collection_delete stale_remotes (RFixnum 7) (start abc)
     = (start abc,
        Abort (Raise
                 (rb_eTypeError "Expecting a String or Rugged::Remote instance")))
  /\ ~ (forall (self arg : VALUE) (w : world SpecStore.config_store),
          isRepositoryValid (rugged_owner self) = false ->
          snd (rb_git_remote_collection_delete self arg w)
          = Abort (Raise rb_eRepositoryUnavailable)).
Proof.
  split; [reflexivity |]. split; [reflexivity |].
  intros H. specialize (H stale_remotes (RFixnum 7) (start abc) eq_refl).
  discriminate H.
Qed.

(** An anonymous remote next to a, b, c. *)
Lemma create_anonymous_persists_nothing_witness :
  let out :=
    rb_git_remote_collection_create_anonymous valid_url
      remotes (RString "git://host/x.git") (start abc) in
  (exists remote,
      snd out = Ok (RRemote live_repo remote)
      /\ remote_name remote = None
      /\ remote_url remote = "git://host/x.git")
  /\ config (fst out) = abc
  /\ trace (fst out) = [StoreCall (CallCreateAnonymous "git://host/x.git")]
  /\ store_list (config (fst out)) = GitOk ["a"; "b"; "c"].
Proof.
  pose proof (create_anonymous_persists_nothing valid_url
                remotes "git://host/x.git" (start abc)
                eq_refl eq_refl eq_refl) as (Hremote & Hconfig & Htrace & Hlist & _).
  exact (conj Hremote (conj Hconfig (conj Htrace Hlist))).
Defined.


(** Creating "a" a second time, with another URL. *)
Lemma create_rejects_existing_name_witness :
  let out :=
    rb_git_remote_collection_create valid_url
      remotes (RString "a") (RString "git://elsewhere/a.git") (start abc) in
  snd out = Abort (Raise (rb_eRuggedError GIT_EEXISTS))
  /\ classify (rb_eRuggedError GIT_EEXISTS) = AlreadyExists
  /\ config (fst out) = abc
  /\ store_load (config (fst out)) "a" = GitOk remote_a.
Proof.
  exact (create_rejects_existing_name valid_url
           remotes "a" "git://elsewhere/a.git" (start abc) remote_a
           eq_refl eq_refl eq_refl eq_refl eq_refl).
Defined.

(** [each_name] on a repository without remotes: no yield, nil. *)
Example each_name_empty_snapshot :
  rb_git_remote_collection_each_name remotes (Some quiet)
    (start ([] : SpecStore.config_store))
  = ({| config := []; trace := [StoreCall CallList] |}, Ok Qnil).
Proof. reflexivity. Qed.

(** Without a block both iterations hand back an enumerator and touch
    nothing, whatever the state of the repository. *)
Example each_without_block :
  rb_git_remote_collection_each stale_remotes None (start abc)
  = (start abc, Ok (REnumerator stale_remotes (RSymbol "each")))
  /\ rb_git_remote_collection_each_name stale_remotes None (start abc)
     = (start abc, Ok (REnumerator stale_remotes (RSymbol "each_name"))).
Proof. split; reflexivity. Qed.

End WorkedRuns.

(* ===================================================================== *)
(** ** More about the iterations, over every configuration store *)
(* ===================================================================== *)

Section IterationFacts.

Context {S : Type} {CS : ConfigStore S}.

Implicit Types (w : world S) (blk : block S) (self : VALUE).



(** The snapshot could not be read: both iterations raise the store's error
    after that one call; the block is never run. *)
Theorem each_raises_when_list_fails :
  forall self only_names blk w e,
    isRepositoryValid (rugged_owner self) = true ->
    store_list (config w) = GitErr e ->
    rb_git_remote_collection__each self only_names (Some blk) w
    = (log (StoreCall CallList) w, Abort (Raise (rb_eRuggedError e))).
Proof.
  intros self only_names blk w e Hlive Hlist.
  unfold rb_git_remote_collection__each, rugged_check_repo.
  rewrite Hlive. unfold bind at 1. unfold ret at 1.
  unfold bind at 1. unfold git_remote_list at 1. rewrite Hlist.
  reflexivity.
Qed.

(** [each] over a snapshot all of whose names load and on which the block
    completes: one load and one yield per name, in snapshot order, then
    nil. *)
Theorem each_completes :
  forall self blk w names evs s',
    isRepositoryValid (rugged_owner self) = true ->
    store_list (config w) = GitOk names ->
    materialized_ok (rugged_owner self) blk names (config w) evs s' ->
    rb_git_remote_collection_each self (Some blk) w
    = ({| config := s'; trace := trace w ++ StoreCall CallList :: evs |},
       Ok Qnil).
Proof.
  intros self blk w names evs s' Hlive Hlist Hrun.
  unfold rb_git_remote_collection_each.
  rewrite (each_prologue _ _ _ _ _ Hlive Hlist).
  change (negb (0 =? 0)) with false. cbv iota.
  rewrite <- (app_nil_r names) at 1.
  rewrite (each_loop_prefix _ _ _ _ evs s') by exact Hrun.
  same_world.
Qed.



(** Running a block over a list of names: it completes on all of them, or
    there is a first name on which it ends by a non-local exit. *)
Lemma block_run_cases blk names :
  forall s,
    (exists s', yields_ok blk (map rb_str_new_utf8 names) s s')
    \/ (exists pre name post s1 s' state,
           names = pre ++ name :: post
           /\ yields_ok blk (map rb_str_new_utf8 pre) s s1
           /\ blk (rb_str_new_utf8 name) s1 = (s', state)
           /\ state <> 0).
Proof.
  induction names as [| name names IH]; intros s.
  - left. exists s. constructor.
  - destruct (blk (rb_str_new_utf8 name) s) as [s1 state] eqn:Hblk.
    destruct (Z.eq_dec state 0) as [-> | Hstate].
    + destruct (IH s1) as [[s' Hrun]
                          | (pre & n & post & s2 & s' & st & -> & Hrun & Hn & Hst)].
      * left. exists s'. simpl.
        apply yields_ok_cons with (s1 := s1); assumption.
      * right. exists (name :: pre), n, post, s2, s', st.
        repeat split; try assumption.
        simpl. apply yields_ok_cons with (s1 := s1); assumption.
    + right. exists [], name, names, s, s1, state.
      repeat split; try assumption. constructor.
Qed.


(** [each_name] with a block, whatever the block does (changing the
    configuration included), ends in one of two ways, and the snapshot is
    never read again nor any remote loaded.  Either the block completes on
    every name of the snapshot: then every name was yielded, in order and
    verbatim, and the call returns nil.  Or there is a first name on which
    the block ends by a non-local exit: then the names up to and including
    that one were yielded, none after it, and the call resumes that exit with
    [rb_jump_tag] on the state caught.  So the call returns nil exactly when
    the block completes on every name of the snapshot. *)
Theorem each_name_yields_prefix :
  forall self blk w names,
    isRepositoryValid (rugged_owner self) = true ->
    store_list (config w) = GitOk names ->
    let out := rb_git_remote_collection_each_name self (Some blk) w in
    ((exists s',
         yields_ok blk (map rb_str_new_utf8 names) (config w) s'
         /\ out = ({| config := s';
                      trace := trace w ++ StoreCall CallList
                                 :: map Yield (map rb_str_new_utf8 names) |},
                   Ok Qnil))
     \/ (exists pre name post s1 s' state,
            names = pre ++ name :: post
            /\ yields_ok blk (map rb_str_new_utf8 pre) (config w) s1
            /\ blk (rb_str_new_utf8 name) s1 = (s', state)
            /\ state <> 0
            /\ out = ({| config := s';
                         trace := trace w ++ StoreCall CallList
                                    :: map Yield
                                         (map rb_str_new_utf8 (pre ++ [name])) |},
                      Abort (JumpTag state))))
    /\ (snd out = Ok Qnil
        <-> exists s', yields_ok blk (map rb_str_new_utf8 names) (config w) s').
Proof.
  intros self blk w names Hlive Hlist out.
  assert (Hcases :
            (exists s',
                yields_ok blk (map rb_str_new_utf8 names) (config w) s'
                /\ out = ({| config := s';
                             trace := trace w ++ StoreCall CallList
                                        :: map Yield (map rb_str_new_utf8 names) |},
                          Ok Qnil))
            \/ (exists pre name post s1 s' state,
                   names = pre ++ name :: post
                   /\ yields_ok blk (map rb_str_new_utf8 pre) (config w) s1
                   /\ blk (rb_str_new_utf8 name) s1 = (s', state)
                   /\ state <> 0
                   /\ out = ({| config := s';
                                trace := trace w ++ StoreCall CallList
                                           :: map Yield
                                                (map rb_str_new_utf8 (pre ++ [name])) |},
                             Abort (JumpTag state)))).
  { destruct (block_run_cases blk names (config w))
      as [[s' Hrun] | (pre & name & post & s1 & s' & state
                       & Hnames & Hrun & Hblk & Hstate)].
    - left. exists s'. split; [exact Hrun |].
      subst out. exact (each_name_completes _ _ _ _ _ Hlive Hlist Hrun).
    - right. exists pre, name, post, s1, s', state.
      repeat split; try assumption.
      subst out names. unfold rb_git_remote_collection_each_name.
      rewrite (each_prologue _ _ _ _ _ Hlive Hlist).
      change (negb (1 =? 0)) with true. cbv iota.
      unfold bind at 1.
      rewrite (each_name_loop_prefix _ _ _ s1) by exact Hrun.
      simpl each_name_loop. unfold bind at 1. unfold rb_protect_yield at 1.
      cbn [config]. rewrite Hblk.
      rewrite each_name_loop_stopped by exact Hstate.
      unfold ret.
      destruct (Z.eqb_spec state 0) as [Heq | _]; [contradiction |].
      cbn [negb]. rewrite !map_app. same_world. }
  split; [exact Hcases |].
  split.
  - intros Hnil.
    destruct Hcases as [(s' & Hrun & _)
                       | (pre & name & post & s1 & s' & state
                          & _ & _ & _ & _ & Hout)].
    + now exists s'.
    + rewrite Hout in Hnil. discriminate.
  - intros [s' Hrun]. subst out.
    now rewrite (each_name_completes _ _ _ _ _ Hlive Hlist Hrun).
Qed.


End IterationFacts.

(* ===================================================================== *)
(** ** Arguments, and what reaches the store *)
(* ===================================================================== *)

Section ArgumentFacts.

Context {S : Type} {CS : ConfigStore S}.
Variable git_remote_valid_url : string -> bool.

Implicit Types (w : world S) (blk : block S) (self : VALUE).

Lemma ruby_type_eqb_neq (t u : ruby_type) :
  t <> u -> ruby_type_eqb t u = false.
Proof. destruct t, u; simpl; intros H; try reflexivity; now elim H. Qed.

(** On a live repository, [create], [create_anonymous] and lookup refuse an
    argument that is not a string with a type error and without a call to
    the store; [create] looks at the name before the URL. *)
Theorem non_string_arguments_are_refused :
  forall self v w,
    isRepositoryValid (rugged_owner self) = true ->
    TYPE v <> T_STRING ->
    exists msg,
      let refused := (w, Abort (Raise (rb_eTypeError msg))) in
      classify (rb_eTypeError msg) = InvalidArgument
      /\ (forall rb_url,
            rb_git_remote_collection_create git_remote_valid_url self v rb_url w
            = refused)
      /\ (forall name,
            rb_git_remote_collection_create git_remote_valid_url
              self (RString name) v w = refused)
      /\ rb_git_remote_collection_create_anonymous git_remote_valid_url self v w
         = refused
      /\ rb_git_remote_collection_aref self v w = refused.
Proof.
  intros self v w Hlive Htype.
  apply ruby_type_eqb_neq in Htype.
  exists "wrong argument type"%string.
  unfold rb_git_remote_collection_create,
    rb_git_remote_collection_create_anonymous,
    rb_git_remote_collection_aref, rugged_check_repo, Check_Type, bind, ret.
  rewrite Hlive. cbn [TYPE ruby_type_eqb]. rewrite Htype.
  repeat split.
Qed.

(** A URL the validator rejects never reaches the store: [create] and
    [create_anonymous] raise the argument error and change nothing —
    [create] whatever the name is, which it has not yet looked into. *)
Theorem rejected_url_never_reaches_store :
  forall self url w,
    isRepositoryValid (rugged_owner self) = true ->
    has_nul url = false ->
    git_remote_valid_url url = false ->
    exists e,
      classify e = InvalidArgument
      /\ (forall name,
            rb_git_remote_collection_create git_remote_valid_url
              self (RString name) (RString url) w = (w, Abort (Raise e)))
      /\ rb_git_remote_collection_create_anonymous git_remote_valid_url
           self (RString url) w = (w, Abort (Raise e)).
Proof.
  intros self url w Hlive Hnul Hurl.
  exists (rb_eArgError "Invalid URL format").
  unfold rb_git_remote_collection_create,
    rb_git_remote_collection_create_anonymous, rugged_check_repo, Check_Type,
    rugged_validate_remote_url, StringValueCStr, bind, ret.
  rewrite Hlive, Hnul. cbn [TYPE ruby_type_eqb]. rewrite Hurl.
  repeat split.
Qed.

(** A name that holds a NUL byte is refused, not cut short: lookup, [delete]
    (of the name or of a remote carrying it) and [create] raise the argument
    error and make no call to the store. *)
Theorem names_with_nul_are_refused :
  forall self name w,
    isRepositoryValid (rugged_owner self) = true ->
    has_nul name = true ->
    let refused :=
      (w, Abort (Raise (rb_eArgError "string contains null byte"))) in
    rb_git_remote_collection_aref self (RString name) w = refused
    /\ (forall arg,
          delete_target arg = Some name ->
          rb_git_remote_collection_delete self arg w = refused)
    /\ (forall url,
          has_nul url = false ->
          git_remote_valid_url url = true ->
          rb_git_remote_collection_create git_remote_valid_url
            self (RString name) (RString url) w = refused).
Proof.
  intros self name w Hlive Hnul refused. subst refused.
  split; [| split].
  - unfold rb_git_remote_collection_aref, rugged_check_repo, Check_Type,
      StringValueCStr, bind, ret.
    rewrite Hlive, Hnul. reflexivity.
  - intros arg Htarget. rewrite (delete_resolves_target _ _ _ _ Htarget).
    unfold rb_git_remote_collection_delete, rugged_check_repo,
      StringValueCStr, bind, ret.
    cbn [rb_obj_is_kind_of TYPE ruby_type_eqb negb].
    rewrite Hlive, Hnul. reflexivity.
  - intros url Hurl Hvalid.
    unfold rb_git_remote_collection_create, rugged_check_repo, Check_Type,
      rugged_validate_remote_url, StringValueCStr, bind, ret.
    rewrite Hlive, Hnul, Hurl. cbn [TYPE ruby_type_eqb]. rewrite Hvalid.
    reflexivity.
Qed.

(** Past its checks, [create] asks the store once, with the name and the URL
    as given — the name is not examined here, an empty one included — and
    the store's answer is the outcome: its remote, owned by the collection's
    repository, or its error code raised.  [create_anonymous] does the same
    with the URL. *)
Theorem create_forwards_store_outcome :
  forall self url w,
    isRepositoryValid (rugged_owner self) = true ->
    has_nul url = false ->
    git_remote_valid_url url = true ->
    (forall name,
        has_nul name = false ->
        rb_git_remote_collection_create git_remote_valid_url
          self (RString name) (RString url) w
        = ({| config := fst (store_create (config w) name url);
              trace := trace w ++ [StoreCall (CallCreate name url)] |},
           match snd (store_create (config w) name url) with
           | GitOk remote => Ok (RRemote (rugged_owner self) remote)
           | GitErr e => Abort (Raise (rb_eRuggedError e))
           end))
    /\ rb_git_remote_collection_create_anonymous git_remote_valid_url
         self (RString url) w
       = ({| config := fst (store_create_anonymous (config w) url);
             trace := trace w ++ [StoreCall (CallCreateAnonymous url)] |},
          match snd (store_create_anonymous (config w) url) with
          | GitOk remote => Ok (RRemote (rugged_owner self) remote)
          | GitErr e => Abort (Raise (rb_eRuggedError e))
          end).
Proof.
  intros self url w Hlive Hurl Hvalid. split.
  - intros name Hname.
    unfold rb_git_remote_collection_create, rugged_check_repo, Check_Type,
      rugged_validate_remote_url, StringValueCStr, git_remote_create,
      bind, ret.
    rewrite Hlive, Hname, Hurl. cbn [TYPE ruby_type_eqb]. rewrite Hvalid.
    destruct (store_create (config w) name url) as [s' [remote | e]];
      reflexivity.
  - unfold rb_git_remote_collection_create_anonymous, rugged_check_repo,
      Check_Type, rugged_validate_remote_url, StringValueCStr,
      git_remote_create_anonymous, bind, ret.
    rewrite Hlive, Hurl. cbn [TYPE ruby_type_eqb]. rewrite Hvalid.
    destruct (store_create_anonymous (config w) url) as [s' [remote | e]];
      reflexivity.
Qed.

(** Called without a block, [each] and [each_name] check nothing and touch
    nothing: they hand back an enumerator, and the method that enumerator
    names is the one that made it — run with a block, the enumerator is
    that method called with the block. *)
Theorem enumerator_runs_the_same_iteration :
  forall self w blk,
    rb_obj_is_kind_of self rb_cRuggedRemoteCollection = true ->
    (exists e,
        rb_git_remote_collection_each self None w = (w, Ok e)
        /\ enumerator_each git_remote_valid_url e blk
           = Some (rb_git_remote_collection_each self (Some blk)))
    /\ (exists e,
          rb_git_remote_collection_each_name self None w = (w, Ok e)
          /\ enumerator_each git_remote_valid_url e blk
             = Some (rb_git_remote_collection_each_name self (Some blk))).
Proof.
  intros self w blk Hkind. split.
  - exists (REnumerator self (RSymbol "each")). split; [reflexivity |].
    unfold enumerator_each, rb_funcall_with_block. rewrite Hkind.
    reflexivity.
  - exists (REnumerator self (RSymbol "each_name")). split; [reflexivity |].
    unfold enumerator_each, rb_funcall_with_block. rewrite Hkind.
    reflexivity.
Qed.

End ArgumentFacts.

(* ===================================================================== *)
(** ** Iteration against lookup *)
(* ===================================================================== *)

Section MaterializationFacts.

Context {S : Type} {CS : ConfigStore S}.

Implicit Types (w : world S) (blk : block S) (self : VALUE).

(** The remote loop only ever appends to the trace, and always ends. *)
Lemma each_loop_appends rb_repo blk strings :
  forall error exception w,
  exists s' evs flags,
    each_loop rb_repo blk strings error exception w
    = ({| config := s'; trace := trace w ++ evs |}, Ok flags).
Proof.
  induction strings as [| name rest IH]; intros error exception w; simpl.
  - exists (config w), [], (error, exception).
    rewrite app_nil_r. now destruct w.
  - destruct ((exception =? 0) && (error_of error =? 0)).
    + unfold bind at 1. unfold git_remote_load at 1.
      destruct (store_load (config w) name) as [remote | e].
      * unfold bind at 1. unfold rb_protect_yield at 1.
        destruct (blk _ _) as [s1 state].
        destruct (IH (GitOk tt) state
                    {| config := s1;
                       trace := trace (log (StoreCall (CallLoad name)) w)
                                  ++ [Yield (rugged_remote_new rb_repo remote)] |})
          as (s' & evs & flags & Hrun).
        rewrite Hrun.
        exists s',
          (StoreCall (CallLoad name)
             :: Yield (rugged_remote_new rb_repo remote) :: evs), flags.
        same_world.
      * destruct (IH (GitErr e) exception (log (StoreCall (CallLoad name)) w))
          as (s' & evs & flags & Hrun).
        rewrite Hrun. exists s', (StoreCall (CallLoad name) :: evs), flags.
        same_world.
    + exists (config w), [], (error, exception).
      unfold ret. rewrite app_nil_r. now destruct w.
Qed.

(** Loading a remote for [each] is the lookup of its name, but for the
    absent name: at the point where the iteration reaches a name, it yields
    the very remote a lookup of that name would return there, raises what the
    lookup would raise, and raises NotFound where the lookup would return
    nil. *)
Theorem each_materializes_as_lookup :
  forall self blk w pre name post evs s1 t,
    isRepositoryValid (rugged_owner self) = true ->
    store_list (config w) = GitOk (pre ++ name :: post) ->
    materialized_ok (rugged_owner self) blk pre (config w) evs s1 ->
    has_nul name = false ->
    let found :=
      snd (rb_git_remote_collection_aref self (RString name)
             {| config := s1; trace := t |}) in
    let out := rb_git_remote_collection_each self (Some blk) w in
    (forall v,
        found = Ok v -> v <> Qnil ->
        exists evs',
          trace (fst out)
          = trace w ++ StoreCall CallList
              :: evs ++ StoreCall (CallLoad name) :: Yield v :: evs')
    /\ (found = Ok Qnil ->
        out = ({| config := s1;
                  trace := trace w ++ StoreCall CallList
                             :: evs ++ [StoreCall (CallLoad name)] |},
               Abort (Raise (rb_eRuggedError GIT_ENOTFOUND))))
    /\ (forall u,
          found = Abort u ->
          out = ({| config := s1;
                    trace := trace w ++ StoreCall CallList
                               :: evs ++ [StoreCall (CallLoad name)] |},
                 Abort u)).
Proof.
  intros self blk w pre name post evs s1 t Hlive Hlist Hrun Hnul found out.
  assert (Hout : out
                 = match
                     each_loop (rugged_owner self) blk (name :: post) (GitOk tt) 0
                       {| config := s1;
                          trace := trace (log (StoreCall CallList) w) ++ evs |}
                   with
                   | (w', Ok (error, exception)) =>
                       if negb (exception =? 0)
                       then (w', Abort (JumpTag exception))
                       else
                         match error with
                         | GitOk _ => (w', Ok Qnil)
                         | GitErr e => (w', Abort (Raise (rb_eRuggedError e)))
                         end
                   | (w', Abort u) => (w', Abort u)
                   end).
  { subst out. unfold rb_git_remote_collection_each.
    rewrite (each_prologue _ _ _ _ _ Hlive Hlist).
    change (negb (0 =? 0)) with false. cbv iota.
    now rewrite (each_loop_prefix _ _ _ _ evs s1) by exact Hrun. }
  assert (Hfound : found
                   = match store_load s1 name with
                     | GitOk remote => Ok (rugged_remote_new (rugged_owner self) remote)
                     | GitErr e =>
                         if git_error_value e =? git_error_value GIT_ENOTFOUND
                         then Ok Qnil
                         else Abort (Raise (rb_eRuggedError e))
                     end).
  { subst found.
    unfold rb_git_remote_collection_aref, rugged_check_repo, Check_Type,
      StringValueCStr, git_remote_load, bind, ret.
    rewrite Hlive, Hnul. cbn [TYPE ruby_type_eqb config].
    destruct (store_load s1 name) as [remote | e]; simpl.
    - reflexivity.
    - destruct (git_error_value e =? -3); reflexivity. }
  clearbody found out.
  simpl each_loop in Hout. unfold bind at 1 in Hout.
  unfold git_remote_load at 1 in Hout. cbn [config] in Hout.
  destruct (store_load s1 name) as [remote | e] eqn:Hload.
  - subst found. split; [| split]; try discriminate.
    intros v Hv _. injection Hv as <-.
    unfold bind at 1 in Hout. unfold rb_protect_yield at 1 in Hout.
    unfold log in Hout. cbn [config trace] in Hout.
    destruct (blk _ s1) as [s2 state].
    destruct (each_loop_appends (rugged_owner self) blk post (GitOk tt) state
                {| config := s2;
                   trace := (((trace w ++ [StoreCall CallList]) ++ evs)
                               ++ [StoreCall (CallLoad name)])
                              ++ [Yield (rugged_remote_new (rugged_owner self) remote)] |})
      as (s' & evs' & [error exception] & Hrest).
    rewrite Hrest in Hout. exists evs'. subst out.
    destruct (negb (exception =? 0)); [same_world |].
    destruct error; same_world.
  - rewrite each_loop_stopped_error in Hout. cbn [negb Z.eqb] in Hout.
    destruct (git_error_value e =? git_error_value GIT_ENOTFOUND) eqn:Hcode.
    + assert (He : e = GIT_ENOTFOUND).
      { pose proof (proj1 (error_of_enotfound (A := unit) (GitErr e)) Hcode)
          as H. now injection H. }
      subst e found out. split; [| split].
      * intros v Hv Hne. injection Hv as <-. now elim Hne.
      * intros _. same_world.
      * discriminate.
    + subst found out. split; [| split]; try discriminate.
      intros u Hu. injection Hu as <-. same_world.
Qed.

End MaterializationFacts.

(* ===================================================================== *)
(** ** More worked runs *)
(* ===================================================================== *)

Section MoreWorkedRuns.

Import Sample.

(** Both iterations against a store that cannot be read. *)
Lemma each_raises_when_list_fails_witness :
  rb_git_remote_collection__each (CS := BrokenStore.store)
    remotes 0 (Some (fun _ s => (s, 0))) (start tt)
  = ({| config := tt; trace := [StoreCall CallList] |},
     Abort (Raise (rb_eRuggedError GIT_ERROR))).
Proof.
  exact (each_raises_when_list_fails (CS := BrokenStore.store)
           remotes 0 (fun _ s => (s, 0)) (start tt) GIT_ERROR
           eq_refl eq_refl).
Defined.

(** [each] over a, b, c with a block that does nothing. *)
Lemma each_completes_witness :
  rb_git_remote_collection_each remotes (Some quiet) (start abc)
  = ({| config := abc;
        trace := [StoreCall CallList;
                  StoreCall (CallLoad "a"); Yield (RRemote live_repo remote_a);
                  StoreCall (CallLoad "b"); Yield (RRemote live_repo remote_b);
                  StoreCall (CallLoad "c");
                  Yield (RRemote live_repo
                           (SpecStore.named_remote "c" "git://host/c.git"))] |},
     Ok Qnil).
Proof.
  refine (each_completes remotes quiet (start abc) ["a"; "b"; "c"] _ abc
            eq_refl eq_refl _).
  repeat (eapply materialized_ok_cons; [reflexivity | reflexivity |]).
  apply materialized_ok_nil.
Defined.

(** [each_name] over a, b, c with a block that raises on "b". *)
Lemma each_name_yields_prefix_witness :
  let out :=
    rb_git_remote_collection_each_name remotes (Some fails_on_b) (start abc) in
  ((exists s',
       yields_ok fails_on_b (map rb_str_new_utf8 ["a"; "b"; "c"]) abc s'
       /\ out = ({| config := s';
                    trace := StoreCall CallList
                               :: map Yield (map rb_str_new_utf8 ["a"; "b"; "c"]) |},
                 Ok Qnil))
   \/ (exists pre name post s1 s' state,
          ["a"; "b"; "c"] = pre ++ name :: post
          /\ yields_ok fails_on_b (map rb_str_new_utf8 pre) abc s1
          /\ fails_on_b (rb_str_new_utf8 name) s1 = (s', state)
          /\ state <> 0
          /\ out = ({| config := s';
                       trace := StoreCall CallList
                                  :: map Yield
                                       (map rb_str_new_utf8 (pre ++ [name])) |},
                    Abort (JumpTag state))))
  /\ (snd out = Ok Qnil
      <-> exists s',
          yields_ok fails_on_b (map rb_str_new_utf8 ["a"; "b"; "c"]) abc s').
Proof.
  exact (each_name_yields_prefix remotes fails_on_b (start abc)
           ["a"; "b"; "c"] eq_refl eq_refl).
Defined.


(** Looking up a number. *)
Lemma non_string_arguments_are_refused_witness :
  exists msg,
    rb_git_remote_collection_aref remotes (RFixnum 7) (start abc)
    = (start abc, Abort (Raise (rb_eTypeError msg))).
Proof.
  assert (Htype : TYPE (RFixnum 7) <> T_STRING) by discriminate.
  destruct (non_string_arguments_are_refused valid_url
              remotes (RFixnum 7) (start abc) eq_refl Htype)
    as (msg & _ & _ & _ & _ & Haref).
  exists msg. exact Haref.
Defined.

(** Creating a remote with an empty URL. *)
Lemma rejected_url_never_reaches_store_witness :
  exists e,
    classify e = InvalidArgument
    /\ rb_git_remote_collection_create valid_url
         remotes (RString "origin") (RString "") (start abc)
       = (start abc, Abort (Raise e)).
Proof.
  destruct (rejected_url_never_reaches_store valid_url
              remotes "" (start abc) eq_refl eq_refl eq_refl)
    as (e & Hclass & Hcreate & _).
  exists e. split; [exact Hclass | exact (Hcreate "origin")].
Defined.

(** Looking up a name that starts with a NUL byte. *)
Lemma names_with_nul_are_refused_witness :
  rb_git_remote_collection_aref remotes (RString (String zero "a")) (start abc)
  = (start abc, Abort (Raise (rb_eArgError "string contains null byte"))).
Proof.
  exact (proj1 (names_with_nul_are_refused valid_url
                  remotes (String zero "a") (start abc) eq_refl eq_refl)).
Defined.

(** Creating a remote with the empty name: the store is asked, and refuses. *)
Lemma create_forwards_store_outcome_witness :
  rb_git_remote_collection_create valid_url
    remotes (RString "") (RString "git://host/x.git") (start abc)
  = ({| config := abc;
        trace := [StoreCall (CallCreate "" "git://host/x.git")] |},
     Abort (Raise (rb_eRuggedError GIT_EINVALIDSPEC))).
Proof.
  exact (proj1 (create_forwards_store_outcome valid_url
                  remotes "git://host/x.git" (start abc)
                  eq_refl eq_refl eq_refl)
           "" eq_refl).
Defined.

(** The enumerators of a collection over a, b, c. *)
Lemma enumerator_runs_the_same_iteration_witness :
  (exists e,
      rb_git_remote_collection_each remotes None (start abc) = (start abc, Ok e)
      /\ enumerator_each valid_url e quiet
         = Some (rb_git_remote_collection_each remotes (Some quiet)))
  /\ (exists e,
        rb_git_remote_collection_each_name remotes None (start abc)
        = (start abc, Ok e)
        /\ enumerator_each valid_url e quiet
           = Some (rb_git_remote_collection_each_name remotes (Some quiet))).
Proof.
  exact (enumerator_runs_the_same_iteration valid_url
           remotes (start abc) quiet eq_refl).
Defined.

(** [each] reaching "b" after the block removed it: lookup would return nil
    there, the iteration raises NotFound. *)
Lemma each_materializes_as_lookup_witness :
  rb_git_remote_collection_each remotes (Some drops_b) (start abc)
  = ({| config := [("a", "git://host/a.git"); ("c", "git://host/c.git")];
        trace := [StoreCall CallList;
                  StoreCall (CallLoad "a"); Yield (RRemote live_repo remote_a);
                  StoreCall (CallLoad "b")] |},
     Abort (Raise (rb_eRuggedError GIT_ENOTFOUND))).
Proof.
  refine (proj1 (proj2 (each_materializes_as_lookup
                          remotes drops_b (start abc) ["a"] "b" ["c"]
                          [StoreCall (CallLoad "a");
                           Yield (RRemote live_repo remote_a)]
                          [("a", "git://host/a.git"); ("c", "git://host/c.git")]
                          [] eq_refl eq_refl _ eq_refl))
            eq_refl).
  eapply materialized_ok_cons;
    [reflexivity | reflexivity | apply materialized_ok_nil].
Defined.

End MoreWorkedRuns.
